(** * eos/chain/block_schedule.hpp: scope extraction, schedules and the
      fuzzing meta schedulers

    A shallow embedding of [libraries/chain/include/eos/chain/block_schedule.hpp].

    - Objects live in a [memory]; a [pending_transaction] is a tagged pointer
      into it, as the [static_variant] of two [const *] is.
    - [std::set<AccountName>] is a strictly increasing list.
    - [std::vector] is a list of elements together with a capacity; writing
      through an iterator is checked against the size.
    - [double] is Rocq's primitive binary64 float.
    - The two schedulers are only declared in the header; they are modelled
      from the specification. *)

From Stdlib Require Import ZArith NArith Lia List Permutation Floats Uint63.
From Stdlib Require Import Sorting.Sorted.
From stdpp Require Import base option list gmap strings.

Local Open Scope N_scope.
Local Open Scope nat_scope.
Local Open Scope list_scope.

(** ** Accounts, messages and transactions *)

(** Modelled from the spec: [AccountName] is declared in the types library,
    not in the header; it is an account identifier, a 64 bit name ordered by
    its value. *)
Definition AccountName : Type := N.

(** Modelled from the spec: a message of [transaction.hpp]; the visitor reads
    its [code] only, the rest is a payload. *)
Record Message : Type := mkMessage {
  code : AccountName;
  type : N;
  data : list N
}.

(** Modelled from the spec: a signed transaction of [transaction.hpp]; the
    visitor reads [scope] and [messages]. *)
Record SignedTransaction : Type := mkSigned {
  s_scope : list AccountName;
  s_messages : list Message;
  signatures : list N
}.

(** Modelled from the spec: a generated transaction of [transaction.hpp]. *)
Record GeneratedTransaction : Type := mkGenerated {
  g_scope : list AccountName;
  g_messages : list Message;
  id : N
}.

(** The objects the pointers of a schedule point to. *)
Record memory : Type := mkMemory {
  signed_objects : gmap nat SignedTransaction;
  generated_objects : gmap nat GeneratedTransaction
}.

(** [static_variant<SignedTransaction const *, GeneratedTransaction const *>] *)
Inductive pending_transaction : Type :=
| signed_ptr (p : nat)
| generated_ptr (p : nat).

#[global] Instance pending_transaction_eq_dec : EqDecision pending_transaction.
Proof. solve_decision. Defined.

(** ** The schedule *)

Record thread_schedule : Type := mkThread {
  transactions : list pending_transaction
}.

Definition cycle_schedule : Type := list thread_schedule.

Record block_schedule : Type := mkBlock {
  cycles : list cycle_schedule
}.

(** ** [std::set<AccountName>] *)

Module StdSet.

(** [insert]: the position is found by [operator<]; an equal key is kept. *)
Fixpoint insert (x : AccountName) (s : list AccountName) : list AccountName :=
  match s with
  | [] => [x]
  | y :: s' =>
      if (x <? y)%N then x :: y :: s'
      else if (y <? x)%N then y :: insert x s'
      else y :: s'
  end.

(** The range constructor and the range [insert]: one [insert] per element. *)
Definition insert_range (l : list AccountName) (s : list AccountName) : list AccountName :=
  fold_left (fun acc x => insert x acc) l s.

Definition of_range (l : list AccountName) : list AccountName :=
  insert_range l [].

Definition mem (x : AccountName) (s : list AccountName) : bool :=
  existsb (fun y => (x =? y)%N) s.

(** The representation invariant: strictly increasing keys. *)
Definition increasing (s : list AccountName) : Prop := StronglySorted N.lt s.

End StdSet.

(** ** [scope_extracting_visitor] *)

(** The body of the template [operator()], with [trx_p->scope] and
    [trx_p->messages] already read. *)
Definition extract_scopes (scope : list AccountName) (messages : list Message)
  : list AccountName :=
  let unique_names := StdSet.of_range scope in
  fold_left (fun unique_names m => StdSet.insert (code m) unique_names)
            messages unique_names.

(** The visitor applied to a variant: the stored pointer is dereferenced in
    the memory ([None]: the pointer points to no object); the memory is
    threaded through the call. *)
Definition scope_extracting_visitor (trx_p : pending_transaction) (m : memory)
  : option (list AccountName * memory) :=
  match trx_p with
  | signed_ptr p =>
      match signed_objects m !! p with
      | Some t => Some (extract_scopes (s_scope t) (s_messages t), m)
      | None => None
      end
  | generated_ptr p =>
      match generated_objects m !! p with
      | Some t => Some (extract_scopes (g_scope t) (g_messages t), m)
      | None => None
      end
  end.

(** ** The chain properties *)

(** Modelled from the spec: [global_property_object] is declared in its own
    header; the schedulers read the two limits only. *)
Record global_property_object : Type := mkProperties {
  maxCyclesPerBlock : Z;
  maxThreadsPerCycle : Z
}.

(** ** [std::vector] and the random source *)

Record vector (A : Type) : Type := mkVector {
  elems : list A;
  capacity : nat
}.
Arguments mkVector {A} _ _.
Arguments elems {A} _.
Arguments capacity {A} _.

Definition size {A} (v : vector A) : nat := length (elems v).

(** [std::vector<T>()] *)
Definition vector_new {A} : vector A := mkVector [] 0.

(** [v.reserve(n)]: storage for [n] elements, the size stays. *)
Definition reserve {A} (n : nat) (v : vector A) : vector A :=
  mkVector (elems v) (Nat.max (capacity v) n).

(** [*(v.begin() + i) = x]: defined for an element of the vector only. *)
Definition write {A} (v : vector A) (i : nat) (x : A) : option (vector A) :=
  if decide (i < size v) then Some (mkVector (<[i:=x]> (elems v)) (capacity v))
  else None.

(** [std::mt19937] seeded from [std::random_device]: the stream of its 32 bit
    outputs and the number of outputs taken so far. *)
Record mt19937 : Type := mkEngine {
  outputs : nat -> N;
  taken : nat
}.

Definition generate (rng : mt19937) : N * mt19937 :=
  ((outputs rng (taken rng) mod 2 ^ 32)%N, mkEngine (outputs rng) (S (taken rng))).

Definition two_pow_32 : float := Eval cbv in PrimFloat.of_uint63 4294967296%uint63.

(** [(double)w] for an output of the engine. *)
Definition double_of_output (w : N) : float :=
  PrimFloat.of_uint63 (Uint63.of_Z (Z.of_N w)).

(** [std::generate_canonical<double, 53>(rng)]: 53 bits need two outputs of
    the 32 bit engine; the sum of the two, the second scaled by 2^32, is
    divided by 2^64, and a quotient that rounds to 1 is replaced by the
    double below 1. *)
Definition generate_canonical (rng : mt19937) : float * mt19937 :=
  let '(g1, rng1) := generate rng in
  let sum := PrimFloat.add PrimFloat.zero (PrimFloat.mul (double_of_output g1) PrimFloat.one) in
  let tmp := PrimFloat.mul PrimFloat.one two_pow_32 in
  let '(g2, rng2) := generate rng1 in
  let sum := PrimFloat.add sum (PrimFloat.mul (double_of_output g2) tmp) in
  let tmp := PrimFloat.mul tmp two_pow_32 in
  let ret := PrimFloat.div sum tmp in
  (if PrimFloat.leb PrimFloat.one ret then PrimFloat.next_down PrimFloat.one else ret,
   rng2).

(** [std::uniform_real_distribution<> dist(0, 1); dist(rng)]: the canonical
    double scaled to [[a, b)], here [[0, 1)]; each call takes two outputs of
    the engine. *)
Definition uniform_real_distribution (rng : mt19937) : float * mt19937 :=
  let '(u, rng') := generate_canonical rng in
  (PrimFloat.add
     (PrimFloat.mul u (PrimFloat.sub PrimFloat.one PrimFloat.zero)) PrimFloat.zero,
   rng').

(** [std::uniform_int_distribution(0, n)(rng)], as [std::shuffle] draws its
    indices. How the library turns outputs of the engine into an index is
    its own affair; here one output is reduced to the range, and nothing
    below depends on which index of the range is drawn. *)
Definition uniform_int_distribution (n : nat) (rng : mt19937) : nat * mt19937 :=
  let '(w, rng') := generate rng in
  (N.to_nat w mod S n, rng').

(** [(double)n] for an [int] template argument. *)
Definition double_of_int (n : Z) : float :=
  if (n <? 0)%Z then PrimFloat.opp (PrimFloat.of_uint63 (Uint63.of_Z (- n)))
  else PrimFloat.of_uint63 (Uint63.of_Z n).

(** The result of a run that may leave the bounds of a vector. *)
Inductive access (A : Type) : Type :=
| in_bounds (a : A)
| out_of_bounds.
Arguments in_bounds {A} _.
Arguments out_of_bounds {A}.

(** [std::copy_if(first, last, d_first, pred)]: [d_first] is an iterator of
    [dst], here its index; the predicate draws from the engine. *)
Fixpoint copy_if {A} (src : list A) (dst : vector A) (d_first : nat)
    (pred : A -> mt19937 -> bool * mt19937) (rng : mt19937)
  : access (vector A * nat) * mt19937 :=
  match src with
  | [] => (in_bounds (dst, d_first), rng)
  | x :: src' =>
      let '(keep, rng') := pred x rng in
      if keep then
        match write dst d_first x with
        | Some dst' => copy_if src' dst' (S d_first) pred rng'
        | None => (out_of_bounds, rng')
        end
      else copy_if src' dst d_first pred rng'
  end.

(** [std::iter_swap(first + i, first + j)] *)
Definition iter_swap {A} (i j : nat) (l : list A) : list A :=
  match l !! i, l !! j with
  | Some x, Some y => <[j:=x]> (<[i:=y]> l)
  | _, _ => l
  end.

(** The loop of [std::shuffle]: for [i] from [i0] on, [k] positions to go,
    swap position [i] with a drawn position of [[0, i]]. *)
Fixpoint shuffle_from {A} (k i : nat) (l : list A) (rng : mt19937)
  : list A * mt19937 :=
  match k with
  | O => (l, rng)
  | S k' =>
      let '(j, rng') := uniform_int_distribution i rng in
      shuffle_from k' (S i) (iter_swap i j l) rng'
  end.

(** [std::shuffle(v.begin(), v.end(), rng)] *)
Definition shuffle {A} (l : list A) (rng : mt19937) : list A * mt19937 :=
  shuffle_from (length l - 1) 1 l rng.

(** ** The meta schedulers for fuzzing *)

Section Functors.

Context {R : Type}.

(** [NEXT]: what is called with the copy and the properties. *)
Variable next : list pending_transaction -> global_property_object -> R.

(** The variables of one call of a functor: the caller's vector (behind the
    [const &]), the local [copy], and the engine. *)
Record frame : Type := mkFrame {
  fr_transactions : list pending_transaction;
  fr_copy : vector pending_transaction;
  fr_rng : mt19937
}.

(** [shuffled_functor::operator()]: the value returned and the variables at
    the return. *)
Definition shuffled_functor (rng : mt19937)
    (transactions : list pending_transaction)
    (properties : global_property_object) : R * frame :=
  let copy := mkVector transactions (length transactions) in
  let '(shuffled, rng') := shuffle (elems copy) rng in
  let copy := mkVector shuffled (capacity copy) in
  (next (elems copy) properties, mkFrame transactions copy rng').

(** The predicate of [lossy_functor]: [dist(rng) >= cutoff]. *)
Definition lossy_keep (cutoff : float) (trx : pending_transaction)
    (rng : mt19937) : bool * mt19937 :=
  let '(u, rng') := uniform_real_distribution rng in
  (PrimFloat.leb cutoff u, rng').

(** [lossy_functor<NUM, DEN, NEXT>::operator()] *)
Definition lossy_functor (NUM DEN : Z) (rng : mt19937)
    (transactions : list pending_transaction)
    (properties : global_property_object) : access R * frame :=
  let cutoff := PrimFloat.div (double_of_int NUM) (double_of_int DEN) in
  let copy := vector_new in
  let copy := reserve (length transactions) copy in
  match copy_if transactions copy 0 (lossy_keep cutoff) rng with
  | (in_bounds (copy', _), rng') =>
      (in_bounds (next (elems copy') properties),
       mkFrame transactions copy' rng')
  | (out_of_bounds, rng') =>
      (out_of_bounds, mkFrame transactions copy rng')
  end.

End Functors.

(** ** The conflict model and the two schedulers *)

(** [by_threading_conflicts] and [by_cycling_conflicts] are declared in the
    header and defined elsewhere; what follows is the conflict model and the
    two algorithms as the specification describes them (sections 4.2, 4.3,
    4.4 and 7). *)

(** Modelled from the spec: the conflict test of the missing schedulers
    (section 4.2): two scopes conflict when they share an account. *)
Definition conflicts (scopeA scopeB : list AccountName) : bool :=
  existsb (fun a => StdSet.mem a scopeB) scopeA.

(** Modelled from the spec: the outcome of a scheduler of the missing
    implementation: a configuration error, or the schedule with the indices
    (counted from the first cycle) of the cycles a transaction was forced
    into. *)
Inductive outcome : Type :=
| ConfigurationError
| Scheduled (schedule : block_schedule) (forcedConflict : list nat).

(** Modelled from the spec: invalid properties (section 7), rejected at
    entry by the missing schedulers. *)
Definition valid_properties (P : global_property_object) : bool :=
  (0 <? maxCyclesPerBlock P)%Z && (0 <? maxThreadsPerCycle P)%Z.

(** The transactions of a cycle, of a list of cycles and of a schedule, slot
    by slot. *)
Definition cycle_transactions (c : cycle_schedule) : list pending_transaction :=
  concat (map transactions c).

Definition state_transactions (st : list cycle_schedule) : list pending_transaction :=
  concat (map cycle_transactions st).

Definition all_transactions (s : block_schedule) : list pending_transaction :=
  state_transactions (cycles s).

Section Schedulers.

(** The scope extractor the schedulers call on each transaction. *)
Variable extract : pending_transaction -> list AccountName.

(** Modelled from the spec: the cumulative scope of a thread of the missing
    schedulers, the union of the scopes of its transactions. *)
Definition scope_union (th : thread_schedule) : list AccountName :=
  fold_left (fun acc t => StdSet.insert_range (extract t) acc) (transactions th) [].

(** Modelled from the spec: a thread of the missing schedulers accepts a
    transaction when its cumulative scope does not conflict with the
    transaction's scope. *)
Definition accepts (tx : pending_transaction) (th : thread_schedule) : bool :=
  negb (conflicts (extract tx) (scope_union th)).

Definition append_to (tx : pending_transaction) (th : thread_schedule) : thread_schedule :=
  mkThread (transactions th ++ [tx]).

Definition new_thread (tx : pending_transaction) : thread_schedule :=
  mkThread [tx].

(** Modelled from the spec: the first fit of the missing schedulers: threads
    are scanned in creation order and the transaction is appended to the
    first one chosen by [f]. *)
Fixpoint place_first (f : thread_schedule -> bool) (tx : pending_transaction)
    (c : cycle_schedule) : option cycle_schedule :=
  match c with
  | [] => None
  | th :: rest =>
      if f th then Some (append_to tx th :: rest)
      else match place_first f tx rest with
           | Some rest' => Some (th :: rest')
           | None => None
           end
  end.

(** Modelled from the spec: one transaction of the missing
    [by_threading_conflicts] (4.3, steps 2 to 4 and the policy at exhausted
    cycles). The state lists the cycles from the current one back to the
    first. *)
Definition threading_place (P : global_property_object)
    (st : list cycle_schedule) (tx : pending_transaction) : list cycle_schedule :=
  match st with
  | [] => [[new_thread tx]]
  | current :: closed =>
      match place_first (accepts tx) tx current with
      | Some current' => current' :: closed
      | None =>
          if (Z.of_nat (length current) <? maxThreadsPerCycle P)%Z
          then (current ++ [new_thread tx]) :: closed
          else if (Z.of_nat (length st) <? maxCyclesPerBlock P)%Z
          then [new_thread tx] :: st
          else (current ++ [new_thread tx]) :: closed
      end
  end.

(** Modelled from the spec: the missing [by_threading_conflicts]. *)
Definition by_threading_conflicts (transactions : list pending_transaction)
    (properties : global_property_object) : outcome :=
  if valid_properties properties
  then Scheduled (mkBlock (rev (fold_left (threading_place properties) transactions []))) []
  else ConfigurationError.

(** Modelled from the spec: placement of the missing [by_cycling_conflicts]
    into a compatible thread, from the most recent cycle backward (4.4,
    step 2). *)
Fixpoint place_backward (tx : pending_transaction) (st : list cycle_schedule)
  : option (list cycle_schedule) :=
  match st with
  | [] => None
  | c :: older =>
      match place_first (accepts tx) tx c with
      | Some c' => Some (c' :: older)
      | None => match place_backward tx older with
                | Some older' => Some (c :: older')
                | None => None
                end
      end
  end.

(** Modelled from the spec: how much a transaction conflicts with a thread
    of the missing scheduler: the number of its accounts in the thread's
    cumulative scope. *)
Definition overlap (tx : pending_transaction) (th : thread_schedule) : nat :=
  length (filter (fun a => StdSet.mem a (scope_union th) = true) (extract tx)).

Definition min_overlap (tx : pending_transaction) (c : cycle_schedule) : nat :=
  match c with
  | [] => 0
  | th :: rest => fold_right (fun t m => Nat.min (overlap tx t) m) (overlap tx th) rest
  end.

(** Modelled from the spec: the fallback of the missing
    [by_cycling_conflicts] (4.4, step 4): the least conflicting thread of the
    last cycle, the first of them in creation order. *)
Definition force_into (tx : pending_transaction) (c : cycle_schedule) : cycle_schedule :=
  match place_first (fun th => overlap tx th =? min_overlap tx c) tx c with
  | Some c' => c'
  | None => c ++ [new_thread tx]
  end.

(** Modelled from the spec: one transaction of the missing
    [by_cycling_conflicts]; the state is the cycles, most recent first, and
    the forced cycles. *)
Definition cycling_place (P : global_property_object)
    (st : list cycle_schedule * list nat) (tx : pending_transaction)
  : list cycle_schedule * list nat :=
  match place_backward tx st.1 with
  | Some cs => (cs, st.2)
  | None =>
      if (Z.of_nat (length st.1) <? maxCyclesPerBlock P)%Z
      then ([new_thread tx] :: st.1, st.2)
      else match st.1 with
           | [] => ([[new_thread tx]], st.2)
           | last :: older => (force_into tx last :: older, st.2 ++ [length older])
           end
  end.

(** Modelled from the spec: the missing [by_cycling_conflicts]. *)
Definition by_cycling_conflicts (transactions : list pending_transaction)
    (properties : global_property_object) : outcome :=
  if valid_properties properties
  then let st := fold_left (cycling_place properties) transactions ([], []) in
       Scheduled (mkBlock (rev st.1)) st.2
  else ConfigurationError.

(** Two distinct threads of a cycle share no account. *)
Definition cycle_disjoint (c : cycle_schedule) : Prop :=
  forall (i j : nat) (A B : thread_schedule),
    i <> j -> c !! i = Some A -> c !! j = Some B ->
    forall a : AccountName, a ∈ scope_union A -> a ∈ scope_union B -> False.

(** The invariant of a schedule: every cycle without a forced conflict is
    disjoint. *)
Definition schedule_disjoint (r : outcome) : Prop :=
  match r with
  | ConfigurationError => True
  | Scheduled s forced =>
      forall (n : nat) (c : cycle_schedule),
        cycles s !! n = Some c -> n ∉ forced -> cycle_disjoint c
  end.

End Schedulers.

(** Every cycle holds one thread. *)
Definition single_threaded (st : list cycle_schedule) : Prop :=
  Forall (fun c : cycle_schedule => length c = 1) st.

(** The extractor the schedulers use on the objects of a memory. *)
Definition extract_in (m : memory) (tx : pending_transaction) : list AccountName :=
  match scope_extracting_visitor tx m with
  | Some (names, _) => names
  | None => []
  end.

(** ** The two algorithms, rule by rule *)

Section SchedulerRules.

Variable extract : pending_transaction -> list AccountName.

(** Modelled from the spec: the first fit of the missing schedulers as a
    rule: the threads before the chosen one are all refused by [f]. *)
Inductive placed_first (f : thread_schedule -> bool) (tx : pending_transaction)
  : cycle_schedule -> cycle_schedule -> Prop :=
| placed_first_intro (pre : list thread_schedule) (th : thread_schedule)
    (post : list thread_schedule) :
    Forall (fun t => f t = false) pre ->
    f th = true ->
    placed_first f tx (pre ++ th :: post) (pre ++ append_to tx th :: post).

(** No thread of the cycles accepts the transaction. *)
Definition no_compatible (tx : pending_transaction) (st : list cycle_schedule) : Prop :=
  Forall (fun c : cycle_schedule => Forall (fun th => accepts extract tx th = false) c) st.

(** Modelled from the spec: the steps of section 4.3 of the missing
    [by_threading_conflicts], one rule per step. *)
Inductive threading_step (P : global_property_object) (tx : pending_transaction)
  : list cycle_schedule -> list cycle_schedule -> Prop :=
| threading_first_cycle :
    threading_step P tx [] [[new_thread tx]]
| threading_fit (current current' : cycle_schedule) (closed : list cycle_schedule) :
    placed_first (accepts extract tx) tx current current' ->
    threading_step P tx (current :: closed) (current' :: closed)
| threading_new_thread (current : cycle_schedule) (closed : list cycle_schedule) :
    no_compatible tx [current] ->
    (Z.of_nat (length current) < maxThreadsPerCycle P)%Z ->
    threading_step P tx (current :: closed) ((current ++ [new_thread tx]) :: closed)
| threading_new_cycle (current : cycle_schedule) (closed : list cycle_schedule) :
    no_compatible tx [current] ->
    (maxThreadsPerCycle P <= Z.of_nat (length current))%Z ->
    (Z.of_nat (length (current :: closed)) < maxCyclesPerBlock P)%Z ->
    threading_step P tx (current :: closed) ([new_thread tx] :: current :: closed)
| threading_forced (current : cycle_schedule) (closed : list cycle_schedule) :
    no_compatible tx [current] ->
    (maxThreadsPerCycle P <= Z.of_nat (length current))%Z ->
    (maxCyclesPerBlock P <= Z.of_nat (length (current :: closed)))%Z ->
    threading_step P tx (current :: closed) ((current ++ [new_thread tx]) :: closed).

(** Modelled from the spec: step 2 of section 4.4: the most recent cycle
    with a compatible thread takes the transaction. *)
Inductive placed_backward (tx : pending_transaction)
  : list cycle_schedule -> list cycle_schedule -> Prop :=
| placed_backward_intro (newer : list cycle_schedule) (c c' : cycle_schedule)
    (older : list cycle_schedule) :
    no_compatible tx newer ->
    placed_first (accepts extract tx) tx c c' ->
    placed_backward tx (newer ++ c :: older) (newer ++ c' :: older).

(** Modelled from the spec: the least conflicting thread of step 4 of
    section 4.4, the first of the least conflicting ones. *)
Inductive least_conflicting (tx : pending_transaction)
  : cycle_schedule -> cycle_schedule -> Prop :=
| least_conflicting_intro (pre : list thread_schedule) (th : thread_schedule)
    (post : list thread_schedule) :
    Forall (fun t => overlap extract tx th < overlap extract tx t) pre ->
    Forall (fun t => overlap extract tx th <= overlap extract tx t) post ->
    least_conflicting tx (pre ++ th :: post) (pre ++ append_to tx th :: post).

(** Modelled from the spec: the steps of section 4.4 of the missing
    [by_cycling_conflicts]. *)
Inductive cycling_step (P : global_property_object) (tx : pending_transaction)
  : list cycle_schedule * list nat -> list cycle_schedule * list nat -> Prop :=
| cycling_fit (st st' : list cycle_schedule) (forced : list nat) :
    placed_backward tx st st' ->
    cycling_step P tx (st, forced) (st', forced)
| cycling_new_cycle (st : list cycle_schedule) (forced : list nat) :
    no_compatible tx st ->
    (Z.of_nat (length st) < maxCyclesPerBlock P)%Z ->
    cycling_step P tx (st, forced) ([new_thread tx] :: st, forced)
| cycling_forced (last last' : cycle_schedule) (older : list cycle_schedule)
    (forced : list nat) :
    no_compatible tx (last :: older) ->
    (maxCyclesPerBlock P <= Z.of_nat (length (last :: older)))%Z ->
    least_conflicting tx last last' ->
    cycling_step P tx (last :: older, forced) (last' :: older, forced ++ [length older]).

(** The transactions are taken in input order. *)
Inductive run {S : Type} (step : pending_transaction -> S -> S -> Prop)
  : list pending_transaction -> S -> S -> Prop :=
| run_nil (st : S) : run step [] st st
| run_cons (tx : pending_transaction) (T : list pending_transaction) (st st' st'' : S) :
    step tx st st' -> run step T st' st'' -> run step (tx :: T) st st''.

(** Modelled from the spec: an invocation of the missing
    [by_threading_conflicts] and what it may return. *)
Inductive by_threading_conflicts_rel (T : list pending_transaction)
    (P : global_property_object) : outcome -> Prop :=
| threading_rejected :
    (maxCyclesPerBlock P <= 0 \/ maxThreadsPerCycle P <= 0)%Z ->
    by_threading_conflicts_rel T P ConfigurationError
| threading_scheduled (st : list cycle_schedule) :
    (0 < maxCyclesPerBlock P)%Z -> (0 < maxThreadsPerCycle P)%Z ->
    run (threading_step P) T [] st ->
    by_threading_conflicts_rel T P (Scheduled (mkBlock (rev st)) []).

(** Modelled from the spec: an invocation of the missing
    [by_cycling_conflicts] and what it may return. *)
Inductive by_cycling_conflicts_rel (T : list pending_transaction)
    (P : global_property_object) : outcome -> Prop :=
| cycling_rejected :
    (maxCyclesPerBlock P <= 0 \/ maxThreadsPerCycle P <= 0)%Z ->
    by_cycling_conflicts_rel T P ConfigurationError
| cycling_scheduled (st : list cycle_schedule) (forced : list nat) :
    (0 < maxCyclesPerBlock P)%Z -> (0 < maxThreadsPerCycle P)%Z ->
    run (cycling_step P) T ([], []) (st, forced) ->
    by_cycling_conflicts_rel T P (Scheduled (mkBlock (rev st)) forced).

End SchedulerRules.

(** ** Reflection *)

(** Modelled from the spec: [fc::variant], the reflected form of a value: a
    stored transaction reference, an array, or an object of named members.
    The fc library is not part of the header. *)
#[local] Unset Elimination Schemes.
Inductive variant : Type :=
| v_value (p : pending_transaction)
| v_array (items : list variant)
| v_object (members : list (string * variant)).
#[local] Set Elimination Schemes.

Class Reflected (T : Type) : Type := {
  to_variant : T -> variant;
  from_variant : variant -> option T
}.

#[global] Instance reflect_pending_transaction : Reflected pending_transaction := {|
  to_variant p := v_value p;
  from_variant v := match v with v_value p => Some p | _ => None end
|}.

(** [std::vector<T>] is reflected as the array of its elements. *)
#[global] Instance reflect_vector {T : Type} `{Reflected T} : Reflected (list T) := {|
  to_variant l := v_array (map to_variant l);
  from_variant v :=
    match v with
    | v_array items => mapM from_variant items
    | _ => None
    end
|}.

Fixpoint member (name : string) (members : list (string * variant)) : option variant :=
  match members with
  | [] => None
  | (k, v) :: rest => if String.eqb k name then Some v else member name rest
  end.

(** Modelled from the spec: [FC_REFLECT(TYPE, (MEMBER))] for a struct of one
    member: the object has one entry, under the member's name. The macro is
    defined in the fc library. *)
Definition FC_REFLECT {T F : Type} `{Reflected F} (name : string)
    (get : T -> F) (make : F -> T) : Reflected T := {|
  to_variant x := v_object [(name, to_variant (get x))];
  from_variant v :=
    match v with
    | v_object members =>
        match member name members with
        | Some f => make <$> from_variant f
        | None => None
        end
    | _ => None
    end
|}.

(** [FC_REFLECT(eos::chain::thread_schedule, (transactions))] *)
#[global] Instance reflect_thread_schedule : Reflected thread_schedule :=
  FC_REFLECT "transactions" transactions mkThread.

(** [FC_REFLECT(eos::chain::block_schedule, (cycles))] *)
#[global] Instance reflect_block_schedule : Reflected block_schedule :=
  FC_REFLECT "cycles" cycles mkBlock.

(** The names an object exposes. *)
Definition member_names (v : variant) : list string :=
  match v with
  | v_object members => map fst members
  | _ => []
  end.

(** Reading back what was written gives the value. *)
Definition lawful (T : Type) `{Reflected T} : Prop :=
  forall x : T, from_variant (to_variant x) = Some x.

(** What a pointer of the variant points to, as the visitor reads it:
    [trx_p->scope] and [trx_p->messages]. *)
Definition pointee (m : memory) (trx_p : pending_transaction)
  : option (list AccountName * list Message) :=
  match trx_p with
  | signed_ptr p => (fun t => (s_scope t, s_messages t)) <$> signed_objects m !! p
  | generated_ptr p => (fun t => (g_scope t, g_messages t)) <$> generated_objects m !! p
  end.

(** Two calls of the visitor on the same variant, one after the other. *)
Definition extract_twice (trx_p : pending_transaction) (m : memory)
  : option (list AccountName * list AccountName * memory) :=
  match scope_extracting_visitor trx_p m with
  | Some (first, m1) =>
      match scope_extracting_visitor trx_p m1 with
      | Some (second, m2) => Some (first, second, m2)
      | None => None
      end
  | None => None
  end.

(** The elements of [src] a predicate keeps when it is called once per
    element, in order, on the engine: what a filtering copy has to deliver. *)
Fixpoint retained {A} (pred : A -> mt19937 -> bool * mt19937) (src : list A)
    (rng : mt19937) : list A :=
  match src with
  | [] => []
  | x :: src' =>
      let '(keep, rng') := pred x rng in
      if keep then x :: retained pred src' rng' else retained pred src' rng'
  end.

(** [(double)NUM / (double)DEN] *)
Definition cutoff (NUM DEN : Z) : float :=
  PrimFloat.div (double_of_int NUM) (double_of_int DEN).

(** ** The factory type and the functions that build the functors *)

(** [block_schedule::factory] *)
Definition factory : Type :=
  list pending_transaction -> global_property_object -> block_schedule.

(** [block_schedule::shuffled(next)]: the functor, called as a function; each
    call seeds an engine of its own, here the argument [rng]. *)
Definition shuffled {R : Type}
    (next : list pending_transaction -> global_property_object -> R)
    (rng : mt19937) (transactions : list pending_transaction)
    (properties : global_property_object) : R :=
  (shuffled_functor next rng transactions properties).1.

(** [block_schedule::lossy<NUM, DEN>(next)] *)
Definition lossy {R : Type} (NUM DEN : Z)
    (next : list pending_transaction -> global_property_object -> R)
    (rng : mt19937) (transactions : list pending_transaction)
    (properties : global_property_object) : access R :=
  (lossy_functor next NUM DEN rng transactions properties).1.

(** ** Concrete objects to run the definitions on *)

Definition example_memory : memory :=
  mkMemory
    (<[0:=mkSigned [1%N] [] [11%N]]> (<[1:=mkSigned [1%N] [] [12%N]]>
      (<[2:=mkSigned [5%N; 2%N; 5%N] [mkMessage 3%N 0%N []; mkMessage 2%N 1%N [7%N]] []]> ∅)))
    (<[0:=mkGenerated [5%N; 2%N; 5%N] [mkMessage 3%N 4%N []; mkMessage 2%N 0%N []] 9%N]>
      (<[1:=mkGenerated [] [] 10%N]> ∅)).

Definition example_engine : mt19937 :=
  mkEngine (fun n => N.of_nat (n * 7 + 3)) 0.

Definition example_properties : global_property_object :=
  mkProperties 2 2.

(** The accounts of [signed_ptr 2] of [example_memory], declared in another
    order and with other repetitions. *)
Definition example_memory_reordered : memory :=
  mkMemory
    (<[0:=mkSigned [3%N; 2%N] [mkMessage 5%N 0%N []; mkMessage 5%N 0%N []; mkMessage 2%N 0%N []] []]> ∅)
    (<[2:=mkGenerated [5%N; 2%N; 5%N] [mkMessage 3%N 4%N []; mkMessage 2%N 0%N []] 9%N]> ∅).

(** * Properties *)

(** ** [std::set] *)

Module StdSetFacts.

Import StdSet.

Lemma mem_spec (x : AccountName) (s : list AccountName) :
  mem x s = true <-> x ∈ s.
Proof.
  unfold mem. rewrite existsb_exists. split.
  - intros (y & Hy & Heq). apply N.eqb_eq in Heq. subst y.
    by apply list_elem_of_In.
  - intros Hx. exists x. split; [by apply list_elem_of_In | apply N.eqb_refl].
Qed.

Lemma elem_of_insert (a x : AccountName) (s : list AccountName) :
  a ∈ insert x s <-> a = x \/ a ∈ s.
Proof.
  induction s as [|y s IH]; simpl.
  - rewrite list_elem_of_singleton, elem_of_nil. tauto.
  - destruct (N.ltb_spec x y) as [Hxy|Hxy].
    + rewrite !elem_of_cons. tauto.
    + destruct (N.ltb_spec y x) as [Hyx|Hyx].
      * rewrite !elem_of_cons, IH. tauto.
      * assert (x = y) by lia. subst y. rewrite !elem_of_cons. tauto.
Qed.

Lemma insert_increasing (x : AccountName) (s : list AccountName) :
  increasing s -> increasing (insert x s).
Proof.
  unfold increasing. induction 1 as [|y s Hs IH Hy]; simpl.
  - repeat constructor.
  - destruct (N.ltb_spec x y) as [Hxy|Hxy].
    + constructor; [by constructor |].
      constructor; [done |].
      eapply Forall_impl; [exact Hy |]. simpl. intros z Hz. lia.
    + destruct (N.ltb_spec y x) as [Hyx|Hyx].
      * constructor; [done |].
        apply Forall_forall. intros z Hz.
        apply elem_of_insert in Hz as [->|Hz]; [done |].
        rewrite Forall_forall in Hy. by apply Hy.
      * by constructor.
Qed.

Lemma elem_of_insert_range (a : AccountName) (l s : list AccountName) :
  a ∈ insert_range l s <-> a ∈ l \/ a ∈ s.
Proof.
  unfold insert_range. revert s.
  induction l as [|x l IH]; intros s; simpl.
  - rewrite elem_of_nil. tauto.
  - rewrite IH, elem_of_insert, elem_of_cons. tauto.
Qed.

Lemma insert_range_increasing (l s : list AccountName) :
  increasing s -> increasing (insert_range l s).
Proof.
  unfold insert_range. revert s.
  induction l as [|x l IH]; intros s Hs; simpl; [done |].
  by apply IH, insert_increasing.
Qed.

Lemma increasing_NoDup (s : list AccountName) : increasing s -> NoDup s.
Proof.
  induction 1 as [|y s Hs IH Hy]; constructor; [| done].
  intros Hin. rewrite Forall_forall in Hy.
  apply Hy in Hin. lia.
Qed.

(** Two sets with the same elements are the same list. *)
Lemma increasing_ext (s1 s2 : list AccountName) :
  increasing s1 -> increasing s2 ->
  (forall a, a ∈ s1 <-> a ∈ s2) -> s1 = s2.
Proof.
  intros H1. revert s2.
  induction H1 as [|x s1 Hs1 IH Hx]; intros s2 H2 Hext.
  - destruct s2 as [|y s2]; [done |].
    exfalso. eapply elem_of_nil, Hext. by left.
  - destruct H2 as [|y s2 Hs2 Hy].
    + exfalso. eapply elem_of_nil, Hext. by left.
    + rewrite Forall_forall in Hx, Hy.
      assert (x = y) as ->.
      { assert (Hxin : x ∈ y :: s2) by (apply Hext; by left).
        assert (Hyin : y ∈ x :: s1) by (apply Hext; by left).
        apply elem_of_cons in Hxin as [?|Hxin]; [done |].
        apply elem_of_cons in Hyin as [?|Hyin]; [done |].
        apply Hy in Hxin. apply Hx in Hyin. lia. }
      f_equal. apply IH; [done |].
      intros a. split; intros Ha.
      * assert (Hin : a ∈ y :: s2) by (apply Hext; by right).
        apply elem_of_cons in Hin as [->|Hin]; [| done].
        apply Hx in Ha. lia.
      * assert (Hin : a ∈ y :: s1) by (apply Hext; by right).
        apply elem_of_cons in Hin as [->|Hin]; [| done].
        apply Hy in Ha. lia.
Qed.

End StdSetFacts.

(** ** Scope extraction *)

Section Extraction.

Import StdSet StdSetFacts.

Lemma extract_scopes_insert_range (scope : list AccountName) (messages : list Message) :
  extract_scopes scope messages = insert_range (scope ++ map code messages) [].
Proof.
  unfold extract_scopes, of_range, insert_range.
  rewrite fold_left_app. generalize (fold_left (fun acc x => insert x acc) scope []).
  induction messages as [|msg messages IH]; intros acc; simpl; [done |].
  apply IH.
Qed.

Lemma extract_scopes_increasing (scope : list AccountName) (messages : list Message) :
  increasing (extract_scopes scope messages).
Proof.
  rewrite extract_scopes_insert_range. apply insert_range_increasing. constructor.
Qed.

Lemma elem_of_extract_scopes (a : AccountName) (scope : list AccountName)
    (messages : list Message) :
  a ∈ extract_scopes scope messages <-> a ∈ scope \/ a ∈ map code messages.
Proof.
  rewrite extract_scopes_insert_range, elem_of_insert_range, elem_of_app, elem_of_nil.
  tauto.
Qed.

Lemma visitor_of_pointee (m : memory) (trx_p : pending_transaction)
    (scope : list AccountName) (messages : list Message) :
  pointee m trx_p = Some (scope, messages) ->
  scope_extracting_visitor trx_p m = Some (extract_scopes scope messages, m).
Proof.
  destruct trx_p as [p|p]; simpl.
  - destruct (signed_objects m !! p) as [t|]; simpl; [| done]. by intros [= <- <-].
  - destruct (generated_objects m !! p) as [t|]; simpl; [| done]. by intros [= <- <-].
Qed.

(** The extracted set is determined by the accounts listed, whatever their
    order and multiplicity. *)
Lemma extract_scopes_ext (scope1 scope2 : list AccountName)
    (messages1 messages2 : list Message) :
  (forall a, a ∈ scope1 ++ map code messages1 <-> a ∈ scope2 ++ map code messages2) ->
  extract_scopes scope1 messages1 = extract_scopes scope2 messages2.
Proof.
  intros Hext. apply increasing_ext; try apply extract_scopes_increasing.
  intros a. rewrite !elem_of_extract_scopes, <- !elem_of_app. apply Hext.
Qed.

(** C3. For a pending transaction of either variant that points to a
    transaction with declared scope list [scope] and messages [messages], the
    visitor returns (it does not fail) the strictly increasing, hence
    duplicate free, list whose elements are exactly the accounts of [scope]
    together with the [code] of every message; with an empty scope list and
    no messages the result is the empty set. *)
Theorem scope_extraction_is_union (m : memory) (trx_p : pending_transaction)
    (scope : list AccountName) (messages : list Message) :
  pointee m trx_p = Some (scope, messages) ->
  exists names : list AccountName,
    scope_extracting_visitor trx_p m = Some (names, m) /\
    StronglySorted N.lt names /\
    NoDup names /\
    (forall a : AccountName, a ∈ names <-> a ∈ scope \/ a ∈ map code messages) /\
    (scope = [] -> messages = [] -> names = []).
Proof.
  intros Hp. exists (extract_scopes scope messages).
  split; [by apply visitor_of_pointee |].
  split; [apply extract_scopes_increasing |].
  split; [apply increasing_NoDup, extract_scopes_increasing |].
  split; [intros a; apply elem_of_extract_scopes |].
  by intros -> ->.
Qed.

Lemma scope_extraction_is_union_witness :
  pointee example_memory (generated_ptr 0)
    = Some ([5%N; 2%N; 5%N], [mkMessage 3%N 4%N []; mkMessage 2%N 0%N []]) /\
  exists names : list AccountName,
    scope_extracting_visitor (generated_ptr 0) example_memory = Some (names, example_memory) /\
    StronglySorted N.lt names /\
    NoDup names /\
    (forall a : AccountName,
       a ∈ names <->
       a ∈ [5%N; 2%N; 5%N] \/ a ∈ map code [mkMessage 3%N 4%N []; mkMessage 2%N 0%N []]) /\
    ([5%N; 2%N; 5%N] = [] -> [mkMessage 3%N 4%N []; mkMessage 2%N 0%N []] = [] -> names = []).
Proof.
  split; [reflexivity |].
  apply (scope_extraction_is_union example_memory (generated_ptr 0)).
  reflexivity.
Defined.

(** C8. Called twice in a row on a pending transaction that points to a
    transaction, the visitor returns the same set both times (same elements,
    same order) and leaves the memory, and with it the transaction, as it
    was. *)
Theorem scope_extraction_pure (m : memory) (trx_p : pending_transaction) :
  is_Some (pointee m trx_p) ->
  exists names : list AccountName,
    extract_twice trx_p m = Some (names, names, m).
Proof.
  intros [[scope messages] Hp]. exists (extract_scopes scope messages).
  unfold extract_twice.
  by rewrite !(visitor_of_pointee _ _ _ _ Hp).
Qed.

Lemma scope_extraction_pure_witness :
  is_Some (pointee example_memory (signed_ptr 2)) /\
  exists names : list AccountName,
    extract_twice (signed_ptr 2) example_memory = Some (names, names, example_memory).
Proof.
  assert (H : is_Some (pointee example_memory (signed_ptr 2))).
  { eexists. reflexivity. }
  split; [exact H |].
  exact (scope_extraction_pure example_memory (signed_ptr 2) H).
Defined.

(** C10. A signed and a generated transaction with equal declared scope
    lists and messages of equal [code] accounts give equal extracted sets:
    the variant makes no difference. *)
Theorem scope_extraction_variant_blind (m : memory) (ps pg : nat)
    (s : SignedTransaction) (g : GeneratedTransaction) :
  signed_objects m !! ps = Some s ->
  generated_objects m !! pg = Some g ->
  s_scope s = g_scope g ->
  map code (s_messages s) = map code (g_messages g) ->
  scope_extracting_visitor (signed_ptr ps) m
    = scope_extracting_visitor (generated_ptr pg) m /\
  is_Some (scope_extracting_visitor (signed_ptr ps) m).
Proof.
  intros Hs Hg Hscope Hcode. simpl. rewrite Hs, Hg.
  split; [| by eexists].
  do 2 f_equal. rewrite !extract_scopes_insert_range. by rewrite Hscope, Hcode.
Qed.

Lemma scope_extraction_variant_blind_witness :
  scope_extracting_visitor (signed_ptr 2) example_memory
    = scope_extracting_visitor (generated_ptr 0) example_memory /\
  is_Some (scope_extracting_visitor (signed_ptr 2) example_memory).
Proof.
  apply (scope_extraction_variant_blind example_memory 2 0
           (mkSigned [5%N; 2%N; 5%N] [mkMessage 3%N 0%N []; mkMessage 2%N 1%N [7%N]] [])
           (mkGenerated [5%N; 2%N; 5%N] [mkMessage 3%N 4%N []; mkMessage 2%N 0%N []] 9%N));
    reflexivity.
Defined.

End Extraction.

(** ** [shuffled] *)

Section Shuffled.

Context {A : Type}.

Lemma delete_insert_same (l : list A) (i : nat) (y : A) :
  delete i (<[i:=y]> l) = delete i l.
Proof.
  revert i. induction l as [|a l IH]; intros [|i]; simpl; try done.
  by rewrite IH.
Qed.

Lemma insert_Permutation (l : list A) (i : nat) (x y : A) :
  l !! i = Some x -> <[i:=y]> l ≡ₚ y :: delete i l.
Proof.
  intros Hi. rewrite <- (delete_insert_same l i y).
  apply delete_Permutation, list_lookup_insert_eq.
  by eapply lookup_lt_Some.
Qed.

Lemma iter_swap_Permutation (i j : nat) (l : list A) : iter_swap i j l ≡ₚ l.
Proof.
  unfold iter_swap.
  destruct (l !! i) as [x|] eqn:Hi; [| done].
  destruct (l !! j) as [y|] eqn:Hj; [| done].
  destruct (decide (i = j)) as [->|Hne].
  - rewrite list_insert_insert_eq. rewrite list_insert_id; [done |]. congruence.
  - assert (Hj' : <[i:=y]> l !! j = Some y) by (by rewrite list_lookup_insert_ne).
    etrans; [apply (insert_Permutation _ j y x Hj') |].
    etrans; [| symmetry; apply (delete_Permutation l i x Hi)].
    apply Permutation_cons; [done |].
    apply (Permutation_cons_inv (a := y)).
    etrans; [symmetry; apply (delete_Permutation _ j y Hj') |].
    by apply insert_Permutation with x.
Qed.

Lemma shuffle_from_Permutation (k i : nat) (l : list A) (rng : mt19937) :
  (shuffle_from k i l rng).1 ≡ₚ l.
Proof.
  revert i l rng. induction k as [|k IH]; intros i l rng; simpl; [done |].
  destruct (uniform_int_distribution i rng) as [j rng'].
  rewrite IH. apply iter_swap_Permutation.
Qed.

Lemma shuffle_Permutation (l : list A) (rng : mt19937) : (shuffle l rng).1 ≡ₚ l.
Proof. apply shuffle_from_Permutation. Qed.

End Shuffled.

(** C6. [shuffled(next)] works on a copy: at the return the caller's list is
    what it was, the copy is a permutation of it, and the value returned is
    what [next] returns on that copy and the properties. *)
Theorem shuffled_delegates_permutation {R : Type}
    (next : list pending_transaction -> global_property_object -> R)
    (rng : mt19937) (T : list pending_transaction) (P : global_property_object) :
  let call := shuffled_functor next rng T P in
  fr_transactions call.2 = T /\
  elems (fr_copy call.2) ≡ₚ T /\
  call.1 = next (elems (fr_copy call.2)) P.
Proof.
  unfold shuffled_functor. simpl.
  pose proof (shuffle_Permutation T rng) as Hperm.
  destruct (shuffle T rng) as [shuffled rng']. simpl in *.
  by repeat split.
Qed.

(** ** [lossy] *)

Section Lossy.

Context {A : Type}.

(** A vector that was only reserved has no element to write to. *)
Lemma write_reserved (n i : nat) (x : A) :
  write (reserve n vector_new) i x = None.
Proof.
  unfold write, size. simpl. destruct (decide (i < 0)); [lia | done].
Qed.

(** Into a destination without elements [copy_if] copies nothing: it ends in
    bounds exactly when the predicate keeps no element. *)
Lemma copy_if_no_elements (pred : A -> mt19937 -> bool * mt19937)
    (src : list A) (dst : vector A) (rng : mt19937) :
  size dst = 0 ->
  (copy_if src dst 0 pred rng).1 =
    match retained pred src rng with
    | [] => in_bounds (dst, 0)
    | _ :: _ => out_of_bounds
    end.
Proof.
  intros Hsize. revert rng. induction src as [|x src IH]; intros rng; simpl; [done |].
  destruct (pred x rng) as [[|] rng']; [| apply IH].
  unfold write. destruct (decide (0 < size dst)); [lia | done].
Qed.

End Lossy.

(** What [lossy] does: whenever the predicate keeps a transaction the copy
    leaves the bounds of [copy]; otherwise [next] is called on the empty
    list. *)
Lemma lossy_functor_outcome {R : Type}
    (next : list pending_transaction -> global_property_object -> R)
    (NUM DEN : Z) (rng : mt19937) (T : list pending_transaction)
    (P : global_property_object) :
  (lossy_functor next NUM DEN rng T P).1 =
    match retained (lossy_keep (cutoff NUM DEN)) T rng with
    | [] => in_bounds (next [] P)
    | _ :: _ => out_of_bounds
    end.
Proof.
  unfold lossy_functor. fold (cutoff NUM DEN).
  pose proof (copy_if_no_elements (lossy_keep (cutoff NUM DEN)) T
                (reserve (length T) vector_new) rng eq_refl) as Hcopy.
  destruct (copy_if T (reserve (length T) vector_new) 0
              (lossy_keep (cutoff NUM DEN)) rng) as [[[copy' d]|] rng'];
    simpl in Hcopy |- *;
    destruct (retained (lossy_keep (cutoff NUM DEN)) T rng); try done.
  by injection Hcopy as -> ->.
Qed.

(** C4, at a failing input. With the ratio 0/1 the one transaction of the
    list is retained (its drawn value is at least the cutoff), so [next]
    should be called on that list; the call of [lossy] ends out of the bounds
    of [copy] and [next] is not called. *)
Theorem lossy_loses_the_retained :
  retained (lossy_keep (cutoff 0 1)) [signed_ptr 0] example_engine = [signed_ptr 0] /\
  (lossy_functor (fun l _ => l) 0 1 example_engine [signed_ptr 0] example_properties).1
    = out_of_bounds.
Proof. split; reflexivity. Qed.

(** C5, at a failing input. With the ratio 0/1 and a list of one transaction
    the first write of [copy_if] goes to position 0 of a vector of size 0:
    the error branch of the copy is taken. *)
Theorem lossy_writes_out_of_bounds :
  size (reserve 1 (@vector_new pending_transaction)) = 0 /\
  write (reserve 1 vector_new) 0 (signed_ptr 0) = None /\
  (copy_if [signed_ptr 0] (reserve 1 vector_new) 0 (lossy_keep (cutoff 0 1))
     example_engine).1 = out_of_bounds.
Proof. repeat split; reflexivity. Qed.

(** ** The schedulers: coverage *)

Section Coverage.

Variable extract : pending_transaction -> list AccountName.

Lemma cycle_transactions_app (c1 c2 : cycle_schedule) :
  cycle_transactions (c1 ++ c2) = cycle_transactions c1 ++ cycle_transactions c2.
Proof. unfold cycle_transactions. by rewrite map_app, concat_app. Qed.

Lemma cycle_transactions_new_thread (c : cycle_schedule) (tx : pending_transaction) :
  cycle_transactions (c ++ [new_thread tx]) ≡ₚ tx :: cycle_transactions c.
Proof.
  rewrite cycle_transactions_app. unfold cycle_transactions at 2. simpl.
  by rewrite <- Permutation_cons_append.
Qed.

Lemma place_first_transactions (f : thread_schedule -> bool) (tx : pending_transaction)
    (c c' : cycle_schedule) :
  place_first f tx c = Some c' ->
  cycle_transactions c' ≡ₚ tx :: cycle_transactions c.
Proof.
  revert c'. induction c as [|th rest IH]; intros c'; simpl; [done |].
  destruct (f th).
  - intros [= <-]. unfold cycle_transactions. simpl.
    rewrite <- (assoc_L (++)). simpl. by rewrite <- Permutation_middle.
  - destruct (place_first f tx rest) as [rest'|]; [| done].
    intros [= <-]. unfold cycle_transactions in *. simpl.
    rewrite (IH rest' eq_refl). by rewrite <- Permutation_middle.
Qed.

Lemma threading_place_transactions (P : global_property_object)
    (st : list cycle_schedule) (tx : pending_transaction) :
  state_transactions (threading_place extract P st tx) ≡ₚ tx :: state_transactions st.
Proof.
  unfold threading_place, state_transactions.
  destruct st as [|current closed]; [done |].
  destruct (place_first (accepts extract tx) tx current) as [current'|] eqn:Hfit.
  - simpl. by rewrite (place_first_transactions _ _ _ _ Hfit).
  - repeat case_match; simpl; by rewrite ?cycle_transactions_new_thread.
Qed.

Lemma place_backward_transactions (tx : pending_transaction)
    (st st' : list cycle_schedule) :
  place_backward extract tx st = Some st' ->
  state_transactions st' ≡ₚ tx :: state_transactions st.
Proof.
  unfold state_transactions. revert st'.
  induction st as [|c older IH]; intros st'; simpl; [done |].
  destruct (place_first (accepts extract tx) tx c) as [c'|] eqn:Hfit.
  - intros [= <-]. simpl. by rewrite (place_first_transactions _ _ _ _ Hfit).
  - destruct (place_backward extract tx older) as [older'|]; [| done].
    intros [= <-]. simpl. rewrite (IH older' eq_refl).
    by rewrite <- Permutation_middle.
Qed.

Lemma force_into_transactions (tx : pending_transaction) (c : cycle_schedule) :
  cycle_transactions (force_into extract tx c) ≡ₚ tx :: cycle_transactions c.
Proof.
  unfold force_into.
  destruct (place_first _ tx c) as [c'|] eqn:Hfit.
  - by eapply place_first_transactions.
  - apply cycle_transactions_new_thread.
Qed.

Lemma cycling_place_transactions (P : global_property_object)
    (st : list cycle_schedule * list nat) (tx : pending_transaction) :
  state_transactions (cycling_place extract P st tx).1 ≡ₚ tx :: state_transactions st.1.
Proof.
  unfold cycling_place.
  destruct (place_backward extract tx st.1) as [cs|] eqn:Hfit.
  - by apply place_backward_transactions.
  - repeat case_match; simpl; try done.
    unfold state_transactions. simpl. by rewrite force_into_transactions.
Qed.

Lemma fold_threading_transactions (P : global_property_object)
    (T : list pending_transaction) (st : list cycle_schedule) :
  state_transactions (fold_left (threading_place extract P) T st)
    ≡ₚ T ++ state_transactions st.
Proof.
  revert st. induction T as [|tx T IH]; intros st; simpl; [done |].
  rewrite IH, threading_place_transactions. by rewrite <- Permutation_middle.
Qed.

Lemma fold_cycling_transactions (P : global_property_object)
    (T : list pending_transaction) (st : list cycle_schedule * list nat) :
  state_transactions (fold_left (cycling_place extract P) T st).1
    ≡ₚ T ++ state_transactions st.1.
Proof.
  revert st. induction T as [|tx T IH]; intros st; simpl; [done |].
  rewrite IH, cycling_place_transactions. by rewrite <- Permutation_middle.
Qed.

Lemma all_transactions_rev (st : list cycle_schedule) :
  all_transactions (mkBlock (rev st)) ≡ₚ state_transactions st.
Proof.
  unfold all_transactions, state_transactions. simpl.
  by rewrite <- Permutation_rev.
Qed.

(** C2. With valid properties each of the two schedulers returns a schedule,
    and the transactions in its slots, taken together, are a permutation of
    the input list: as multisets they are equal, nothing is duplicated and
    nothing is dropped. *)
Theorem schedulers_cover_the_input (T : list pending_transaction)
    (P : global_property_object) :
  valid_properties P = true ->
  (exists s forced,
     by_threading_conflicts extract T P = Scheduled s forced /\
     all_transactions s ≡ₚ T) /\
  (exists s forced,
     by_cycling_conflicts extract T P = Scheduled s forced /\
     all_transactions s ≡ₚ T).
Proof.
  intros Hvalid. unfold by_threading_conflicts, by_cycling_conflicts.
  rewrite Hvalid. split; eexists _, _; (split; [reflexivity |]).
  - rewrite all_transactions_rev, fold_threading_transactions.
    unfold state_transactions. simpl. by rewrite app_nil_r.
  - rewrite all_transactions_rev, fold_cycling_transactions.
    unfold state_transactions. simpl. by rewrite app_nil_r.
Qed.

End Coverage.

Lemma schedulers_cover_the_input_witness :
  valid_properties example_properties = true /\
  (exists s forced,
     by_threading_conflicts (extract_in example_memory)
       [signed_ptr 0; generated_ptr 0; signed_ptr 1] example_properties = Scheduled s forced /\
     all_transactions s ≡ₚ [signed_ptr 0; generated_ptr 0; signed_ptr 1]) /\
  (exists s forced,
     by_cycling_conflicts (extract_in example_memory)
       [signed_ptr 0; generated_ptr 0; signed_ptr 1] example_properties = Scheduled s forced /\
     all_transactions s ≡ₚ [signed_ptr 0; generated_ptr 0; signed_ptr 1]).
Proof.
  split; [reflexivity |].
  apply (schedulers_cover_the_input (extract_in example_memory)
           [signed_ptr 0; generated_ptr 0; signed_ptr 1] example_properties).
  reflexivity.
Defined.

(** ** The schedulers: disjointness *)

Section Disjointness.

Variable extract : pending_transaction -> list AccountName.

Lemma place_first_length (f : thread_schedule -> bool) (tx : pending_transaction)
    (c c' : cycle_schedule) :
  place_first f tx c = Some c' -> length c' = length c.
Proof.
  revert c'. induction c as [|th rest IH]; intros c'; simpl; [done |].
  destruct (f th); [by intros [= <-] |].
  destruct (place_first f tx rest) as [rest'|]; [| done].
  intros [= <-]. simpl. by rewrite (IH rest' eq_refl).
Qed.

Lemma place_backward_single_threaded (tx : pending_transaction)
    (st st' : list cycle_schedule) :
  place_backward extract tx st = Some st' -> single_threaded st -> single_threaded st'.
Proof.
  unfold single_threaded. revert st'.
  induction st as [|c older IH]; intros st'; simpl; [done |].
  intros Hplace Hst. apply Forall_cons in Hst as [Hc Holder].
  destruct (place_first (accepts extract tx) tx c) as [c'|] eqn:Hfit.
  - injection Hplace as <-. constructor; [| done].
    by rewrite (place_first_length _ _ _ _ Hfit).
  - destruct (place_backward extract tx older) as [older'|]; [| done].
    injection Hplace as <-. constructor; [done |]. by apply IH.
Qed.

Lemma force_into_single (tx : pending_transaction) (th : thread_schedule) :
  force_into extract tx [th] = [append_to tx th].
Proof. unfold force_into. simpl. by rewrite Nat.eqb_refl. Qed.

Lemma cycling_place_single_threaded (P : global_property_object)
    (st : list cycle_schedule * list nat) (tx : pending_transaction) :
  single_threaded st.1 -> single_threaded (cycling_place extract P st tx).1.
Proof.
  intros Hst. unfold cycling_place.
  destruct (place_backward extract tx st.1) as [cs|] eqn:Hfit.
  - by eapply place_backward_single_threaded.
  - destruct (Z.of_nat (length st.1) <? maxCyclesPerBlock P)%Z.
    + by constructor.
    + destruct st.1 as [|last older]; simpl; [by repeat constructor |].
      apply Forall_cons in Hst as [Hlast Holder].
      destruct last as [|th [|? ?]]; try done.
      rewrite force_into_single. by constructor.
Qed.

Lemma fold_cycling_single_threaded (P : global_property_object)
    (T : list pending_transaction) (st : list cycle_schedule * list nat) :
  single_threaded st.1 ->
  single_threaded (fold_left (cycling_place extract P) T st).1.
Proof.
  revert st. induction T as [|tx T IH]; intros st Hst; simpl; [done |].
  by apply IH, cycling_place_single_threaded.
Qed.

Lemma single_thread_disjoint (c : cycle_schedule) :
  length c = 1 -> cycle_disjoint extract c.
Proof.
  intros Hlen i j A B Hne Hi Hj.
  apply lookup_lt_Some in Hi, Hj. lia.
Qed.

(** The cycling scheduler keeps the threads of each cycle disjoint: each of
    its cycles holds a single thread. *)
Lemma by_cycling_conflicts_disjoint (T : list pending_transaction)
    (P : global_property_object) :
  schedule_disjoint extract (by_cycling_conflicts extract T P).
Proof.
  unfold by_cycling_conflicts. destruct (valid_properties P); [| done].
  simpl. intros n c Hc _. apply single_thread_disjoint.
  assert (Hst : single_threaded (fold_left (cycling_place extract P) T ([], [])).1).
  { apply fold_cycling_single_threaded. constructor. }
  unfold single_threaded in Hst. rewrite Forall_forall in Hst.
  apply Hst. apply list_elem_of_In, in_rev, list_elem_of_In.
  by eapply list_elem_of_lookup_2.
Qed.

End Disjointness.

(** Steps 2 and 3 of section 4.3, read as they are written: of two
    transactions that both name account 1, with two threads allowed per
    cycle, the second gets a thread of its own in the same cycle, no cycle is
    marked as forced, and the two threads share account 1. *)
Theorem threading_conflicts_shares_an_account :
  by_threading_conflicts (extract_in example_memory)
    [signed_ptr 0; signed_ptr 1] example_properties
  = Scheduled (mkBlock [[mkThread [signed_ptr 0]; mkThread [signed_ptr 1]]]) [] /\
  ~ schedule_disjoint (extract_in example_memory)
      (by_threading_conflicts (extract_in example_memory)
         [signed_ptr 0; signed_ptr 1] example_properties).
Proof.
  split; [reflexivity |].
  intros Hdisjoint.
  apply (Hdisjoint 0 [mkThread [signed_ptr 0]; mkThread [signed_ptr 1]] eq_refl
           (not_elem_of_nil 0) 0 1 (mkThread [signed_ptr 0]) (mkThread [signed_ptr 1])
           ltac:(done) eq_refl eq_refl 1%N);
    by left.
Qed.

(** ** The schedulers: one outcome per input *)

Section Determinism.

Variable extract : pending_transaction -> list AccountName.

Lemma place_first_None (f : thread_schedule -> bool) (tx : pending_transaction)
    (c : cycle_schedule) :
  place_first f tx c = None <-> Forall (fun t => f t = false) c.
Proof.
  induction c as [|th rest IH]; simpl.
  - split; [constructor | done].
  - rewrite Forall_cons. destruct (f th) eqn:Hf.
    + split; [done | by intros [? _]].
    + destruct (place_first f tx rest); split; try done.
      * intros [_ Hrest]. by apply IH in Hrest.
      * intros _. split; [done | by apply IH].
Qed.

Lemma place_first_Some (f : thread_schedule -> bool) (tx : pending_transaction)
    (c c' : cycle_schedule) :
  place_first f tx c = Some c' <-> placed_first f tx c c'.
Proof.
  split.
  - revert c'. induction c as [|th rest IH]; intros c'; simpl; [done |].
    destruct (f th) eqn:Hf.
    + intros [= <-]. by apply (placed_first_intro f tx [] th rest).
    + destruct (place_first f tx rest) as [rest'|]; [| done].
      intros [= <-]. destruct (IH rest' eq_refl) as [pre t post Hpre Ht].
      apply (placed_first_intro f tx (th :: pre) t post); [by constructor | done].
  - intros [pre th post Hpre Hth].
    induction Hpre as [|t pre Ht Hpre IH]; simpl.
    + by rewrite Hth.
    + by rewrite Ht, IH.
Qed.

Lemma place_backward_None (tx : pending_transaction) (st : list cycle_schedule) :
  place_backward extract tx st = None <-> no_compatible extract tx st.
Proof.
  unfold no_compatible. induction st as [|c older IH]; simpl.
  - split; [constructor | done].
  - rewrite Forall_cons, <- (place_first_None (accepts extract tx) tx c).
    destruct (place_first (accepts extract tx) tx c).
    + split; [done | by intros [? _]].
    + destruct (place_backward extract tx older); split; try done.
      * intros [_ Holder]. by apply IH in Holder.
      * intros _. split; [done | by apply IH].
Qed.

Lemma place_backward_Some (tx : pending_transaction) (st st' : list cycle_schedule) :
  place_backward extract tx st = Some st' <-> placed_backward extract tx st st'.
Proof.
  split.
  - revert st'. induction st as [|c older IH]; intros st'; simpl; [done |].
    destruct (place_first (accepts extract tx) tx c) as [c'|] eqn:Hfit.
    + intros [= <-]. apply place_first_Some in Hfit.
      by apply (placed_backward_intro extract tx [] c c' older); [constructor |].
    + destruct (place_backward extract tx older) as [older'|]; [| done].
      intros [= <-]. destruct (IH older' eq_refl) as [newer d d' oldest Hnewer Hd].
      apply (placed_backward_intro extract tx (c :: newer) d d' oldest); [| done].
      constructor; [by apply place_first_None in Hfit | done].
  - intros [newer c c' older Hnewer Hc]. apply place_first_Some in Hc.
    induction Hnewer as [|d newer Hd Hnewer IH]; simpl.
    + by rewrite Hc.
    + apply (place_first_None _ tx) in Hd. by rewrite Hd, IH.
Qed.

Lemma no_compatible_single (tx : pending_transaction) (c : cycle_schedule) :
  no_compatible extract tx [c] <-> place_first (accepts extract tx) tx c = None.
Proof.
  rewrite place_first_None. unfold no_compatible.
  rewrite Forall_cons. split; [by intros [? _] | by split; [| constructor]].
Qed.

(** The rules of 4.3 describe exactly [threading_place]. *)
Lemma threading_step_place (P : global_property_object) (tx : pending_transaction)
    (st st' : list cycle_schedule) :
  threading_step extract P tx st st' <-> st' = threading_place extract P st tx.
Proof.
  split.
  - intros Hstep. destruct Hstep as
      [|current current' closed Hfit|current closed Hnone Hth
       |current closed Hnone Hth Hcy|current closed Hnone Hth Hcy]; simpl.
    + done.
    + apply place_first_Some in Hfit. by rewrite Hfit.
    + apply no_compatible_single in Hnone. rewrite Hnone.
      by rewrite (proj2 (Z.ltb_lt _ _) Hth).
    + apply no_compatible_single in Hnone. rewrite Hnone.
      rewrite (proj2 (Z.ltb_ge _ _) Hth).
      simpl in Hcy. by rewrite (proj2 (Z.ltb_lt _ _) Hcy).
    + apply no_compatible_single in Hnone. rewrite Hnone.
      rewrite (proj2 (Z.ltb_ge _ _) Hth).
      simpl in Hcy. by rewrite (proj2 (Z.ltb_ge _ _) Hcy).
  - intros ->. destruct st as [|current closed]; simpl; [constructor |].
    destruct (place_first (accepts extract tx) tx current) as [current'|] eqn:Hfit.
    + apply threading_fit. by apply place_first_Some.
    + apply no_compatible_single in Hfit.
      destruct (Z.ltb_spec (Z.of_nat (length current)) (maxThreadsPerCycle P)) as [Hth|Hth].
      * by apply threading_new_thread.
      * destruct (Z.ltb_spec (Z.of_nat (S (length closed))) (maxCyclesPerBlock P))
          as [Hcy|Hcy].
        -- by apply threading_new_cycle.
        -- by apply threading_forced.
Qed.

Lemma fold_min_le (o : thread_schedule -> nat) (b : nat) (rest : list thread_schedule) :
  let g := fold_right (fun t m => Nat.min (o t) m) b rest in
  g <= b /\ Forall (fun t => g <= o t) rest /\
  (g = b \/ Exists (fun t => o t = g) rest).
Proof.
  induction rest as [|t rest IH]; simpl.
  - split; [lia |]. split; [constructor | by left].
  - destruct IH as (Hb & Hall & Hex). simpl in *.
    set (g := fold_right (fun t m => Nat.min (o t) m) b rest) in *.
    split; [lia |]. split.
    + constructor; [lia |]. eapply Forall_impl; [exact Hall |]. simpl. lia.
    + destruct (Nat.le_gt_cases (o t) g) as [Hle|Hgt].
      * right. apply Exists_cons_hd. lia.
      * rewrite Nat.min_r by lia.
        destruct Hex as [Heq|Hex]; [by left |]. right. by apply Exists_cons_tl.
Qed.

Lemma min_overlap_le (tx : pending_transaction) (c : cycle_schedule) :
  Forall (fun t => min_overlap extract tx c <= overlap extract tx t) c.
Proof.
  destruct c as [|th rest]; [constructor |]. simpl.
  destruct (fold_min_le (overlap extract tx) (overlap extract tx th) rest)
    as (Hb & Hall & _).
  by constructor.
Qed.

Lemma min_overlap_attained (tx : pending_transaction) (c : cycle_schedule) :
  c <> [] -> Exists (fun t => overlap extract tx t = min_overlap extract tx c) c.
Proof.
  destruct c as [|th rest]; [done |]. intros _. simpl.
  destruct (fold_min_le (overlap extract tx) (overlap extract tx th) rest)
    as (_ & _ & [Heq|Hex]).
  - apply Exists_cons_hd. by rewrite Heq.
  - by apply Exists_cons_tl.
Qed.

Lemma least_conflicting_force_into (tx : pending_transaction) (c c' : cycle_schedule) :
  least_conflicting extract tx c c' -> force_into extract tx c = c'.
Proof.
  intros Hleast. destruct Hleast as [pre th post Hpre Hpost]. unfold force_into.
  set (whole := pre ++ th :: post).
  assert (Hmin : min_overlap extract tx whole = overlap extract tx th).
  { pose proof (min_overlap_le tx whole) as Hle.
    pose proof (min_overlap_attained tx whole) as Hex.
    rewrite Forall_forall in Hle, Hpre, Hpost.
    assert (Hth : min_overlap extract tx whole <= overlap extract tx th).
    { apply Hle. subst whole. set_solver. }
    apply Exists_exists in Hex as (t & Ht & Heq); [| subst whole; by destruct pre].
    subst whole. apply elem_of_app in Ht as [Ht|Ht].
    - apply Hpre in Ht. lia.
    - apply elem_of_cons in Ht as [->|Ht]; [done |].
      apply Hpost in Ht. lia. }
  assert (Hplaced : placed_first
                      (fun t => overlap extract tx t =? min_overlap extract tx whole)
                      tx whole (pre ++ append_to tx th :: post)).
  { constructor.
    - eapply Forall_impl; [exact Hpre |]. simpl. intros t Ht.
      apply Nat.eqb_neq. lia.
    - apply Nat.eqb_eq. lia. }
  apply place_first_Some in Hplaced. by rewrite Hplaced.
Qed.

(** A step by the rules of 4.4 is the step [cycling_place] takes. *)
Lemma cycling_step_place (P : global_property_object) (tx : pending_transaction)
    (st st' : list cycle_schedule * list nat) :
  cycling_step extract P tx st st' -> st' = cycling_place extract P st tx.
Proof.
  intros Hstep. unfold cycling_place.
  destruct Hstep as [st st' forced Hfit|st forced Hnone Hcy
                    |last last' older forced Hnone Hcy Hleast]; simpl.
  - apply place_backward_Some in Hfit. by rewrite Hfit.
  - apply place_backward_None in Hnone. rewrite Hnone.
    by rewrite (proj2 (Z.ltb_lt _ _) Hcy).
  - apply place_backward_None in Hnone. simpl in Hnone. rewrite Hnone.
    simpl in Hcy. rewrite (proj2 (Z.ltb_ge _ _) Hcy).
    by rewrite (least_conflicting_force_into _ _ _ Hleast).
Qed.

(** On a state of single threaded cycles, with a positive limit of cycles,
    [cycling_place] takes a step of the rules. *)
Lemma cycling_place_step (P : global_property_object) (tx : pending_transaction)
    (st : list cycle_schedule * list nat) :
  (0 < maxCyclesPerBlock P)%Z -> single_threaded st.1 ->
  cycling_step extract P tx st (cycling_place extract P st tx).
Proof.
  intros Hpos Hst. destruct st as [cs forced]. unfold cycling_place. simpl in *.
  destruct (place_backward extract tx cs) as [cs'|] eqn:Hfit.
  - apply cycling_fit. by apply place_backward_Some.
  - apply place_backward_None in Hfit.
    destruct (Z.ltb_spec (Z.of_nat (length cs)) (maxCyclesPerBlock P)) as [Hcy|Hcy].
    + by apply cycling_new_cycle.
    + destruct cs as [|last older]; [simpl in Hcy; lia |].
      apply Forall_cons in Hst as [Hlast _].
      destruct last as [|th [|? ?]]; try done.
      apply cycling_forced; [done | done |].
      rewrite force_into_single.
      by apply (least_conflicting_intro extract tx [] th []).
Qed.

Lemma run_threading (P : global_property_object) (T : list pending_transaction)
    (st st' : list cycle_schedule) :
  run (threading_step extract P) T st st'
  <-> st' = fold_left (threading_place extract P) T st.
Proof.
  split.
  - induction 1 as [st|tx T st st1 st2 Hstep Hrun IH]; simpl; [done |].
    apply threading_step_place in Hstep. by subst st1.
  - intros ->. revert st. induction T as [|tx T IH]; intros st; simpl.
    + constructor.
    + econstructor; [by apply threading_step_place | apply IH].
Qed.

Lemma run_cycling_place (P : global_property_object) (T : list pending_transaction)
    (st st' : list cycle_schedule * list nat) :
  run (cycling_step extract P) T st st' ->
  st' = fold_left (cycling_place extract P) T st.
Proof.
  induction 1 as [st|tx T st st1 st2 Hstep Hrun IH]; simpl; [done |].
  apply cycling_step_place in Hstep. by subst st1.
Qed.

Lemma fold_cycling_run (P : global_property_object) (T : list pending_transaction)
    (st : list cycle_schedule * list nat) :
  (0 < maxCyclesPerBlock P)%Z -> single_threaded st.1 ->
  run (cycling_step extract P) T st (fold_left (cycling_place extract P) T st).
Proof.
  intros Hpos. revert st. induction T as [|tx T IH]; intros st Hst; simpl.
  - constructor.
  - econstructor; [by apply cycling_place_step |].
    by apply IH, cycling_place_single_threaded.
Qed.

Lemma valid_properties_spec (P : global_property_object) :
  valid_properties P = true
  <-> (0 < maxCyclesPerBlock P)%Z /\ (0 < maxThreadsPerCycle P)%Z.
Proof. unfold valid_properties. rewrite andb_true_iff, !Z.ltb_lt. tauto. Qed.

Lemma invalid_properties_spec (P : global_property_object) :
  valid_properties P = false
  <-> (maxCyclesPerBlock P <= 0 \/ maxThreadsPerCycle P <= 0)%Z.
Proof. unfold valid_properties. rewrite andb_false_iff, !Z.ltb_ge. tauto. Qed.

(** What an invocation may return is what the function returns. *)
Lemma by_threading_conflicts_rel_iff (T : list pending_transaction)
    (P : global_property_object) (r : outcome) :
  by_threading_conflicts_rel extract T P r <-> r = by_threading_conflicts extract T P.
Proof.
  unfold by_threading_conflicts. split.
  - intros [Hbad|st Hcy Hth Hrun].
    + apply invalid_properties_spec in Hbad. by rewrite Hbad.
    + rewrite (proj2 (valid_properties_spec P) (conj Hcy Hth)).
      apply run_threading in Hrun. by subst st.
  - intros ->. destruct (valid_properties P) eqn:Hvalid.
    + apply valid_properties_spec in Hvalid as [Hcy Hth].
      apply threading_scheduled; [done | done |]. by apply run_threading.
    + apply threading_rejected. by apply invalid_properties_spec.
Qed.

Lemma by_cycling_conflicts_rel_iff (T : list pending_transaction)
    (P : global_property_object) (r : outcome) :
  by_cycling_conflicts_rel extract T P r <-> r = by_cycling_conflicts extract T P.
Proof.
  unfold by_cycling_conflicts. split.
  - intros [Hbad|st forced Hcy Hth Hrun].
    + apply invalid_properties_spec in Hbad. by rewrite Hbad.
    + rewrite (proj2 (valid_properties_spec P) (conj Hcy Hth)).
      apply run_cycling_place in Hrun. by rewrite <- Hrun.
  - intros ->. destruct (valid_properties P) eqn:Hvalid.
    + apply valid_properties_spec in Hvalid as [Hcy Hth].
      pose proof (fold_cycling_run P T ([], []) Hcy (Forall_nil_2 _)) as Hrun.
      destruct (fold_left (cycling_place extract P) T ([], [])) as [st forced].
      by apply cycling_scheduled.
    + apply cycling_rejected. by apply invalid_properties_spec.
Qed.

(** C7. For every list of transactions and all properties, an invocation of
    [by_threading_conflicts] has an outcome and any two invocations on the
    same input have the same outcome; the same holds for
    [by_cycling_conflicts]. Each scheduler is a total function of the ordered
    list and the properties. *)
Theorem schedulers_deterministic (T : list pending_transaction)
    (P : global_property_object) :
  ((exists r, by_threading_conflicts_rel extract T P r) /\
   (forall r1 r2,
      by_threading_conflicts_rel extract T P r1 ->
      by_threading_conflicts_rel extract T P r2 -> r1 = r2)) /\
  ((exists r, by_cycling_conflicts_rel extract T P r) /\
   (forall r1 r2,
      by_cycling_conflicts_rel extract T P r1 ->
      by_cycling_conflicts_rel extract T P r2 -> r1 = r2)).
Proof.
  split; split.
  - exists (by_threading_conflicts extract T P). by apply by_threading_conflicts_rel_iff.
  - intros r1 r2 H1 H2. apply by_threading_conflicts_rel_iff in H1, H2. congruence.
  - exists (by_cycling_conflicts extract T P). by apply by_cycling_conflicts_rel_iff.
  - intros r1 r2 H1 H2. apply by_cycling_conflicts_rel_iff in H1, H2. congruence.
Qed.

End Determinism.

(** ** Reflection *)

Section Reflection.

Lemma lawful_pending_transaction : lawful pending_transaction.
Proof. by intros p. Qed.

Lemma lawful_vector (T : Type) `{Reflected T} : lawful T -> lawful (list T).
Proof.
  intros HT l. simpl. induction l as [|x l IH]; simpl; [done |].
  rewrite HT. simpl. by rewrite IH.
Qed.

Lemma lawful_FC_REFLECT (T F : Type) `{Reflected F} (name : string)
    (get : T -> F) (make : F -> T) :
  (forall x, make (get x) = x) -> lawful F ->
  @lawful T (FC_REFLECT name get make).
Proof.
  intros Hmake HF x. simpl. rewrite String.eqb_refl, HF. simpl. by rewrite Hmake.
Qed.

Lemma lawful_thread_schedule : lawful thread_schedule.
Proof.
  apply lawful_FC_REFLECT; [by intros [] |].
  apply lawful_vector, lawful_pending_transaction.
Qed.

Lemma lawful_block_schedule : lawful block_schedule.
Proof.
  apply lawful_FC_REFLECT; [by intros [] |].
  apply lawful_vector, lawful_vector, lawful_thread_schedule.
Qed.

(** C9. The reflected form of a block schedule is an object whose one member
    is named [cycles]; it holds an array of cycles, each an array of threads,
    each thread an object whose one member is named [transactions] and holds
    the array of the thread's transactions. The schedule is read back from
    this form, so two schedules with the same reflected form are the same
    schedule: the nesting is kept. *)
Theorem block_schedule_reflection (s : block_schedule) :
  member_names (to_variant s) = ["cycles"%string] /\
  (forall th : thread_schedule, member_names (to_variant th) = ["transactions"%string]) /\
  to_variant s =
    v_object [("cycles"%string,
      v_array (map (fun c : cycle_schedule =>
        v_array (map (fun th : thread_schedule =>
          v_object [("transactions"%string,
                     v_array (map v_value (transactions th)))]) c))
        (cycles s)))] /\
  from_variant (to_variant s) = Some s /\
  (forall s' : block_schedule, to_variant s' = to_variant s -> s' = s).
Proof.
  split; [done |]. split; [done |]. split; [done |].
  split; [apply lawful_block_schedule |].
  intros s' Heq.
  pose proof (lawful_block_schedule s') as Hs'.
  rewrite Heq, lawful_block_schedule in Hs'. congruence.
Qed.

End Reflection.

(** * Further properties of the header's code *)

(** ** More on scope extraction *)

Section ExtractionMore.

Import StdSet StdSetFacts.

Lemma insert_length (x : AccountName) (s : list AccountName) :
  length (insert x s) <= S (length s).
Proof.
  induction s as [|y s IH]; simpl; [done |].
  repeat case_match; simpl; lia.
Qed.

Lemma insert_range_length (l s : list AccountName) :
  length (insert_range l s) <= length l + length s.
Proof.
  unfold insert_range. revert s. induction l as [|x l IH]; intros s; simpl; [done |].
  etrans; [apply IH |]. pose proof (insert_length x s). lia.
Qed.

(** The set the visitor builds has at most one element per declared scope
    entry and message, and it is empty only for a transaction with no scope
    entry and no message. *)
Theorem scope_extraction_size (scope : list AccountName) (messages : list Message) :
  length (extract_scopes scope messages) <= length scope + length messages /\
  (extract_scopes scope messages = [] <-> scope = [] /\ messages = []).
Proof.
  split.
  - rewrite extract_scopes_insert_range.
    etrans; [apply insert_range_length |].
    rewrite length_app, length_map. simpl. lia.
  - split; [| by intros [-> ->]].
    intros Hempty.
    assert (Hnone : forall a, a ∈ scope \/ a ∈ map code messages -> False).
    { intros a Ha. apply elem_of_extract_scopes in Ha.
      rewrite Hempty in Ha. by apply elem_of_nil in Ha. }
    split.
    + destruct scope as [|a scope]; [done |].
      exfalso. apply (Hnone a). left. by left.
    + destruct messages as [|msg messages]; [done |].
      exfalso. apply (Hnone (code msg)). right. simpl. by left.
Qed.

(** Two pending transactions, of either variant, that name the same accounts
    (in scope entries or as message codes, in any order and any number of
    times) give the same extracted set. *)
Theorem scope_extraction_set_determined (m1 m2 : memory)
    (p1 p2 : pending_transaction)
    (scope1 scope2 : list AccountName) (messages1 messages2 : list Message) :
  pointee m1 p1 = Some (scope1, messages1) ->
  pointee m2 p2 = Some (scope2, messages2) ->
  (forall a : AccountName,
     a ∈ scope1 ++ map code messages1 <-> a ∈ scope2 ++ map code messages2) ->
  fst <$> scope_extracting_visitor p1 m1 = fst <$> scope_extracting_visitor p2 m2 /\
  is_Some (scope_extracting_visitor p1 m1).
Proof.
  intros H1 H2 Hsame.
  rewrite (visitor_of_pointee _ _ _ _ H1), (visitor_of_pointee _ _ _ _ H2). simpl.
  split; [| by eexists]. f_equal. by apply extract_scopes_ext.
Qed.

Lemma scope_extraction_set_determined_witness :
  fst <$> scope_extracting_visitor (signed_ptr 2) example_memory
    = fst <$> scope_extracting_visitor (signed_ptr 0) example_memory_reordered /\
  is_Some (scope_extracting_visitor (signed_ptr 2) example_memory).
Proof.
  apply (scope_extraction_set_determined example_memory example_memory_reordered
           (signed_ptr 2) (signed_ptr 0)
           [5%N; 2%N; 5%N] [3%N; 2%N]
           [mkMessage 3%N 0%N []; mkMessage 2%N 1%N [7%N]]
           [mkMessage 5%N 0%N []; mkMessage 5%N 0%N []; mkMessage 2%N 0%N []]);
    [reflexivity | reflexivity |].
  intros a. simpl. rewrite !elem_of_cons, !elem_of_nil. tauto.
Defined.

(** Messages sent to accounts of the declared scope add nothing to the
    extracted set. *)
Theorem scope_extraction_messages_in_scope (scope : list AccountName)
    (messages : list Message) :
  Forall (fun msg => code msg ∈ scope) messages ->
  extract_scopes scope messages = extract_scopes scope [].
Proof.
  intros Hin. apply extract_scopes_ext. intros a.
  rewrite !elem_of_app. simpl. rewrite elem_of_nil.
  split; [| tauto]. intros [Ha|Ha]; [by left |]. left.
  apply list_elem_of_fmap in Ha as (msg & -> & Hmsg).
  rewrite Forall_forall in Hin. by apply Hin.
Qed.

Lemma scope_extraction_messages_in_scope_witness :
  extract_scopes [1%N; 2%N] [mkMessage 2%N 0%N []; mkMessage 1%N 3%N [4%N]]
  = extract_scopes [1%N; 2%N] [].
Proof.
  apply (scope_extraction_messages_in_scope [1%N; 2%N]
           [mkMessage 2%N 0%N []; mkMessage 1%N 3%N [4%N]]).
  repeat constructor; simpl; rewrite !elem_of_cons; tauto.
Defined.

(** Declaring the extracted set itself as the scope, with no messages,
    extracts the same set again. *)
Theorem scope_extraction_idempotent (scope : list AccountName)
    (messages : list Message) :
  extract_scopes (extract_scopes scope messages) [] = extract_scopes scope messages.
Proof.
  apply increasing_ext; try apply extract_scopes_increasing.
  intros a. rewrite (elem_of_extract_scopes a (extract_scopes scope messages) []).
  simpl. rewrite elem_of_nil. tauto.
Qed.

End ExtractionMore.

(** ** More on [lossy] *)

Section LossyMore.

Context {A : Type}.

(** With room in the destination, [copy_if] stays in bounds, leaves the kept
    elements in order from [d_first] on, and returns the position after the
    last one; the rest of the destination and its capacity are as before. *)
Theorem copy_if_fits (pred : A -> mt19937 -> bool * mt19937) (src : list A)
    (dst : vector A) (d_first : nat) (rng : mt19937) :
  d_first + length src <= size dst ->
  exists (dst' : vector A) (rng' : mt19937),
    copy_if src dst d_first pred rng
      = (in_bounds (dst', d_first + length (retained pred src rng)), rng') /\
    elems dst' = take d_first (elems dst) ++ retained pred src rng
                 ++ drop (d_first + length (retained pred src rng)) (elems dst) /\
    capacity dst' = capacity dst.
Proof.
  revert dst d_first rng. induction src as [|x src IH]; intros dst d rng Hfit; simpl.
  - exists dst, rng. rewrite Nat.add_0_r. split; [done |].
    split; [by rewrite take_drop | done].
  - simpl in Hfit. destruct (pred x rng) as [[|] rng1].
    + unfold write. destruct (decide (d < size dst)) as [Hd|Hd]; [| lia].
      set (dst1 := mkVector (<[d:=x]> (elems dst)) (capacity dst)).
      destruct (IH dst1 (S d) rng1) as (dst' & rng' & Hcopy & Helems & Hcap).
      { unfold size, dst1. simpl. rewrite length_insert. unfold size in Hfit. lia. }
      exists dst', rng'. simpl.
      replace (d + S (length (retained pred src rng1)))
        with (S d + length (retained pred src rng1)) by lia.
      split; [done |]. split; [| done].
      rewrite Helems. unfold dst1. simpl.
      rewrite (take_S_r _ d x) by (apply list_lookup_insert_eq; exact Hd).
      rewrite take_insert_ge by lia.
      rewrite drop_insert_lt by lia.
      by rewrite <- (assoc_L (++)).
    + destruct (IH dst d rng1) as (dst' & rng' & Hcopy & Helems & Hcap); [lia |].
      by exists dst', rng'.
Qed.

End LossyMore.

Lemma copy_if_fits_witness :
  exists (dst' : vector pending_transaction) (rng' : mt19937),
    copy_if [signed_ptr 0; signed_ptr 1]
      (mkVector [generated_ptr 7; generated_ptr 8; generated_ptr 9] 3) 0
      (lossy_keep (cutoff 0 1)) example_engine
      = (in_bounds (dst', 0 + length (retained (lossy_keep (cutoff 0 1))
                                        [signed_ptr 0; signed_ptr 1] example_engine)),
         rng') /\
    elems dst'
      = take 0 [generated_ptr 7; generated_ptr 8; generated_ptr 9]
        ++ retained (lossy_keep (cutoff 0 1)) [signed_ptr 0; signed_ptr 1] example_engine
        ++ drop (0 + length (retained (lossy_keep (cutoff 0 1))
                               [signed_ptr 0; signed_ptr 1] example_engine))
             [generated_ptr 7; generated_ptr 8; generated_ptr 9] /\
    capacity dst' = 3.
Proof.
  apply (copy_if_fits (lossy_keep (cutoff 0 1)) [signed_ptr 0; signed_ptr 1]
           (mkVector [generated_ptr 7; generated_ptr 8; generated_ptr 9] 3) 0
           example_engine).
  unfold size. simpl. lia.
Defined.

(** Each call of the predicate of [lossy] draws one double, that is two
    outputs of the engine. *)
Lemma lossy_keep_engine (c : float) (trx : pending_transaction) (rng : mt19937) :
  (lossy_keep c trx rng).2 = mkEngine (outputs rng) (S (S (taken rng))).
Proof. done. Qed.

Lemma copy_if_lossy_none_kept (c : float) (src : list pending_transaction)
    (dst : vector pending_transaction) (rng : mt19937) :
  retained (lossy_keep c) src rng = [] ->
  copy_if src dst 0 (lossy_keep c) rng
  = (in_bounds (dst, 0), mkEngine (outputs rng) (taken rng + 2 * length src)).
Proof.
  revert rng. induction src as [|x src IH]; intros rng; cbn [retained copy_if length].
  - intros _. rewrite Nat.mul_0_r, Nat.add_0_r. by destruct rng.
  - pose proof (lossy_keep_engine c x rng) as Hengine.
    destruct (lossy_keep c x rng) as [[|] rng1];
      [intros Hkept; discriminate Hkept |].
    simpl in Hengine. subst rng1. intros Hnone.
    rewrite (IH _ Hnone). simpl. do 2 f_equal. lia.
Qed.

(** When a call of [lossy] returns, [next] was called on the empty list; the
    caller's list is as it was, [copy] holds no element and has storage for
    one element per transaction, and the engine gave two outputs (one
    double) per transaction. *)
Theorem lossy_return_state {R : Type}
    (next : list pending_transaction -> global_property_object -> R)
    (NUM DEN : Z) (rng : mt19937) (T : list pending_transaction)
    (P : global_property_object) (r : R) :
  (lossy_functor next NUM DEN rng T P).1 = in_bounds r ->
  lossy_functor next NUM DEN rng T P
  = (in_bounds (next [] P),
     mkFrame T (mkVector [] (length T))
       (mkEngine (outputs rng) (taken rng + 2 * length T))).
Proof.
  intros Hret. rewrite lossy_functor_outcome in Hret.
  destruct (retained (lossy_keep (cutoff NUM DEN)) T rng) eqn:Hkept; [| done].
  unfold lossy_functor. fold (cutoff NUM DEN).
  by rewrite (copy_if_lossy_none_kept _ _ _ _ Hkept).
Qed.

Lemma lossy_return_state_witness :
  lossy_functor (fun l _ => length l) 0 0 example_engine
    [signed_ptr 0; signed_ptr 1] example_properties
  = (in_bounds 0,
     mkFrame [signed_ptr 0; signed_ptr 1] (mkVector [] 2)
       (mkEngine (outputs example_engine) (taken example_engine + 2 * 2))).
Proof.
  apply (lossy_return_state (fun l _ => length l) 0 0 example_engine
           [signed_ptr 0; signed_ptr 1] example_properties 0).
  reflexivity.
Defined.

(** [lossy<NUM, DEN>(next)] never passes a transaction to [next]: for every
    list, engine and ratio the call leaves the bounds of [copy] as soon as
    the predicate keeps a transaction, and it calls [next] on the empty list
    when the predicate keeps none. *)
Theorem lossy_passes_nothing_on {R : Type}
    (next : list pending_transaction -> global_property_object -> R)
    (NUM DEN : Z) (rng : mt19937) (T : list pending_transaction)
    (P : global_property_object) :
  lossy NUM DEN next rng T P
  = match retained (lossy_keep (cutoff NUM DEN)) T rng with
    | [] => in_bounds (next [] P)
    | _ :: _ => out_of_bounds
    end.
Proof. unfold lossy. apply lossy_functor_outcome. Qed.

(** [0.0 / 0.0] is not a number, and no value is at least it. *)
Lemma cutoff_nan_leb (u : float) : PrimFloat.leb (cutoff 0 0) u = false.
Proof.
  rewrite FloatAxioms.leb_spec.
  replace (Prim2SF (cutoff 0 0)) with S754_nan by (vm_compute; reflexivity).
  reflexivity.
Qed.

Lemma retained_nan (T : list pending_transaction) (rng : mt19937) :
  retained (lossy_keep (cutoff 0 0)) T rng = [].
Proof.
  revert rng. induction T as [|x T IH]; intros rng; simpl; [done |].
  unfold lossy_keep. destruct (uniform_real_distribution rng) as [u rng'].
  rewrite cutoff_nan_leb. apply IH.
Qed.

(** [lossy<0, 0>]: the cutoff is not a number, every comparison with it
    fails, so every transaction is dropped: for every list and engine the
    call returns what [next] returns on the empty list. *)
Theorem lossy_zero_by_zero {R : Type}
    (next : list pending_transaction -> global_property_object -> R)
    (rng : mt19937) (T : list pending_transaction) (P : global_property_object) :
  lossy 0 0 next rng T P = in_bounds (next [] P).
Proof.
  unfold lossy. by rewrite lossy_functor_outcome, retained_nan.
Qed.

(** ** More on [shuffled] and on composing the meta schedulers *)

Lemma shuffle_short {A : Type} (l : list A) (rng : mt19937) :
  length l <= 1 -> shuffle l rng = (l, rng).
Proof.
  intros Hlen. unfold shuffle.
  replace (length l - 1) with 0 by lia. done.
Qed.

(** On a list of at most one transaction [shuffled] takes nothing from the
    engine and calls [next] on the list as it is. *)
Theorem shuffled_short_list {R : Type}
    (next : list pending_transaction -> global_property_object -> R)
    (rng : mt19937) (T : list pending_transaction) (P : global_property_object) :
  length T <= 1 ->
  shuffled_functor next rng T P
  = (next T P, mkFrame T (mkVector T (length T)) rng).
Proof.
  intros Hlen. unfold shuffled_functor. simpl. by rewrite (shuffle_short T rng Hlen).
Qed.

Lemma shuffled_short_list_witness :
  shuffled_functor (fun l _ => l) example_engine [generated_ptr 1] example_properties
  = ([generated_ptr 1],
     mkFrame [generated_ptr 1] (mkVector [generated_ptr 1] 1) example_engine).
Proof.
  apply (shuffled_short_list (fun l _ => l) example_engine [generated_ptr 1]
           example_properties).
  simpl. lia.
Defined.

Lemma shuffled_permutation {R : Type}
    (next : list pending_transaction -> global_property_object -> R)
    (rng : mt19937) (T : list pending_transaction) (P : global_property_object) :
  exists T', T' ≡ₚ T /\ shuffled next rng T P = next T' P.
Proof.
  unfold shuffled, shuffled_functor. simpl.
  pose proof (shuffle_Permutation T rng) as Hperm.
  destruct (shuffle T rng) as [T' rng']. by exists T'.
Qed.

(** Whatever holds of [next] on every list, and does not depend on the order
    of the list, holds of [shuffled(next)] on the caller's list. *)
Theorem shuffled_keeps_order_blind_properties {R : Type}
    (next : list pending_transaction -> global_property_object -> R)
    (Q : list pending_transaction -> R -> Prop)
    (rng : mt19937) (T : list pending_transaction) (P : global_property_object) :
  (forall l l' r, l ≡ₚ l' -> Q l r -> Q l' r) ->
  (forall l, Q l (next l P)) ->
  Q T (shuffled next rng T P).
Proof.
  intros Hblind Hnext.
  destruct (shuffled_permutation next rng T P) as (T' & Hperm & ->).
  by apply (Hblind T').
Qed.

Lemma shuffled_keeps_order_blind_properties_witness :
  length (shuffled (fun l _ => l) example_engine
            [signed_ptr 0; signed_ptr 1; generated_ptr 0] example_properties)
  = length [signed_ptr 0; signed_ptr 1; generated_ptr 0].
Proof.
  apply (shuffled_keeps_order_blind_properties (fun l _ => l)
           (fun l r => length r = length l) example_engine
           [signed_ptr 0; signed_ptr 1; generated_ptr 0] example_properties).
  - intros l l' r Hperm Hlen. rewrite Hlen. by apply Permutation_length.
  - intros l. reflexivity.
Defined.

(** [shuffled(shuffled(next))] calls [next] on a permutation of the caller's
    list. *)
Theorem shuffled_twice {R : Type}
    (next : list pending_transaction -> global_property_object -> R)
    (rng1 rng2 : mt19937) (T : list pending_transaction) (P : global_property_object) :
  exists T', T' ≡ₚ T /\ shuffled (shuffled next rng2) rng1 T P = next T' P.
Proof.
  destruct (shuffled_permutation (shuffled next rng2) rng1 T P) as (T1 & Hperm1 & ->).
  destruct (shuffled_permutation next rng2 T1 P) as (T2 & Hperm2 & ->).
  exists T2. split; [| done]. by etrans.
Qed.

(** Composed with [shuffled] on either side, [lossy] still passes no
    transaction on: the call leaves the bounds of [copy] when the predicate
    keeps a transaction, and [next] is called on the empty list otherwise. *)
Theorem lossy_with_shuffled {R : Type}
    (next : list pending_transaction -> global_property_object -> R)
    (NUM DEN : Z) (rng1 rng2 : mt19937) (T : list pending_transaction)
    (P : global_property_object) :
  lossy NUM DEN (shuffled next rng2) rng1 T P
    = match retained (lossy_keep (cutoff NUM DEN)) T rng1 with
      | [] => in_bounds (next [] P)
      | _ :: _ => out_of_bounds
      end /\
  exists T', T' ≡ₚ T /\
    shuffled (lossy NUM DEN next rng2) rng1 T P
    = match retained (lossy_keep (cutoff NUM DEN)) T' rng2 with
      | [] => in_bounds (next [] P)
      | _ :: _ => out_of_bounds
      end.
Proof.
  split.
  - unfold lossy. rewrite lossy_functor_outcome.
    by destruct (retained (lossy_keep (cutoff NUM DEN)) T rng1).
  - destruct (shuffled_permutation (lossy NUM DEN next rng2) rng1 T P)
      as (T' & Hperm & ->).
    exists T'. split; [done |]. unfold lossy. apply lossy_functor_outcome.
Qed.
